(** * compat.h of kartlytics: the portability header, as a function on
      translation units

    [src/compat.h] holds preprocessor directives and one declaration.  What
    such a file does is change the translation unit that includes it: it adds
    macro definitions and declares identifiers.  The header is embedded here
    as the function [compat_h] on translation-unit states, written with one
    combinator per directive ([ifndef], [define], [typedef_enum]), in the
    order of the file.  A second, small layer gives the C meaning of the
    expressions the macros expand to. *)

From stdpp Require Import base option list strings gmap.
From Stdlib Require Import ZArith Lia.

Open Scope string_scope.
Open Scope list_scope.
Open Scope Z_scope.

(** ** Preprocessing tokens and macros *)

(** The punctuators that occur in the replacement lists modelled here. *)
Inductive punct :=
  | LParen | RParen | Arrow | PlusPlus | Star | Comma.

Inductive token :=
  | TId (x : string)
  | TNum (n : N)
  | TPunct (p : punct).

(** A macro is object-like ([#define N body]) or function-like
    ([#define N(params) body]). *)
Inductive macro :=
  | ObjectLike (body : list token)
  | FunctionLike (params : list string) (body : list token).

#[global] Instance punct_eq_dec : EqDecision punct.
Proof. solve_decision. Defined.
#[global] Instance token_eq_dec : EqDecision token.
Proof. solve_decision. Defined.
#[global] Instance macro_eq_dec : EqDecision macro.
Proof. solve_decision. Defined.

(** ** Translation units *)

(** Ordinary identifiers declared so far: enumeration constants with their
    value, and typedef names of enumerated types with their members. *)
Inductive decl :=
  | DEnumerator (v : Z)
  | DTypedefEnum (members : list string).

Record tu := mkTu {
  macros : gmap string macro;
  decls : gmap string decl
}.

Definition empty_tu : tu := mkTu ∅ ∅.

Inductive pp_error :=
  | MacroRedefined (name : string)
  | Redeclared (name : string)
  | MacroInDeclaration (name : string).

Inductive result (A : Type) :=
  | Ok (a : A)
  | Err (e : pp_error).
Arguments Ok {A} a.
Arguments Err {A} e.

Definition bind {A B} (r : result A) (k : A → result B) : result B :=
  match r with
  | Ok a => k a
  | Err e => Err e
  end.

(** A directive maps a translation unit to a new one, or stops with a
    diagnostic.  [d1 >=> d2] is one line after the other. *)
Definition directive := tu → result tu.

Definition seq (d1 d2 : directive) : directive := λ E, bind (d1 E) d2.
Infix ">=>" := seq (at level 65, right associativity).

(** ** The directives the header uses *)

(** [#define name ...].  Defining a name again is allowed when the new
    definition is the same as the old one and is a constraint violation
    otherwise (ISO C 6.10.3).  The model follows a compiler that rejects the
    translation unit on that diagnostic; one that only warns goes on with
    the new definition. *)
Definition define (name : string) (m : macro) : directive := λ E,
  match macros E !! name with
  | None => Ok (mkTu (<[name := m]> (macros E)) (decls E))
  | Some m' => if decide (m' = m) then Ok E else Err (MacroRedefined name)
  end.

(** [#ifndef name ... #endif]: the group is skipped when [name] is a macro. *)
Definition ifndef (name : string) (group : directive) : directive := λ E,
  match macros E !! name with
  | Some _ => Ok E
  | None => group E
  end.

(** Declaring an ordinary identifier; a second declaration of the same
    identifier in the same scope is an error. *)
Definition declare (x : string) (d : decl) : directive := λ E,
  match decls E !! x with
  | None => Ok (mkTu (macros E) (<[x := d]> (decls E)))
  | Some _ => Err (Redeclared x)
  end.

(** Enumeration constants without an initialiser: the first has value 0 and
    each later one is one more than its predecessor (ISO C 6.7.2.2). *)
Fixpoint enum_values (next : Z) (members : list string) : list (string * Z) :=
  match members with
  | [] => []
  | x :: rest => (x, next) :: enum_values (next + 1) rest
  end.

Fixpoint declare_all (l : list (string * Z)) : directive :=
  match l with
  | [] => Ok
  | (x, v) :: rest => declare x (DEnumerator v) >=> declare_all rest
  end.

(** The first identifier of a line that names an object-like macro at that
    point. *)
Fixpoint first_macro (E : tu) (idents : list string) : option string :=
  match idents with
  | [] => None
  | x :: rest =>
      match macros E !! x with
      | Some (ObjectLike _) => Some x
      | _ => first_macro E rest
      end
  end.

(** [typedef enum { members } name;].  The line is a text line, so it is
    subject to macro replacement.  None of its identifiers is followed by
    an opening parenthesis, so a function-like macro of the same name is
    not invoked; when one of them names an object-like macro the
    declaration that reaches the compiler is not the one written, and the
    model stops there with [MacroInDeclaration]. *)
Definition typedef_enum (members : list string) (name : string) : directive := λ E,
  match first_macro E ("typedef" :: "enum" :: members ++ [name]) with
  | Some x => Err (MacroInDeclaration x)
  | None =>
      (declare_all (enum_values 0 members) >=> declare name (DTypedefEnum members)) E
  end.

(** ** The header *)

(** The macros, one definition per [#define] line of the file. *)
Definition COMPAT_H : macro := ObjectLike [].

Definition MILLISEC : macro := ObjectLike [TNum 1000%N].

Definition PATH_MAX : macro := ObjectLike [TNum 1024%N].

Definition EXIT_SUCCESS : macro := ObjectLike [TNum 0%N].
Definition EXIT_FAILURE : macro := ObjectLike [TNum 1%N].
Definition EXIT_USAGE : macro := ObjectLike [TNum 2%N].

(** [#define png_jmpbuf(png_ptr) ((png_ptr)->jmpbuf)] *)
Definition png_jmpbuf : macro :=
  FunctionLike ["png_ptr"]
    [TPunct LParen; TPunct LParen; TId "png_ptr"; TPunct RParen;
     TPunct Arrow; TId "jmpbuf"; TPunct RParen].

(** The lines between [#ifndef COMPAT_H] and the closing [#endif]. *)
Definition compat_h_group : directive :=
  define "COMPAT_H" COMPAT_H >=>
  define "MILLISEC" MILLISEC >=>
  define "PATH_MAX" PATH_MAX >=>
  define "EXIT_SUCCESS" EXIT_SUCCESS >=>
  define "EXIT_FAILURE" EXIT_FAILURE >=>
  define "EXIT_USAGE" EXIT_USAGE >=>
  typedef_enum ["B_FALSE"; "B_TRUE"] "boolean_t" >=>
  ifndef "png_jmpbuf" (define "png_jmpbuf" png_jmpbuf).

Definition compat_h : directive :=
  ifndef "COMPAT_H" compat_h_group.

(** [#include "compat.h"] written [n] times in a row. *)
Fixpoint include_n (n : nat) : directive :=
  match n with
  | O => Ok
  | S k => compat_h >=> include_n k
  end.

(** ** Macro replacement *)

(** The argument bound to parameter [x], when [x] is a parameter. *)
Fixpoint lookup_arg (params : list string) (args : list (list token))
    (x : string) : option (list token) :=
  match params, args with
  | p :: ps, a :: rest => if decide (x = p) then Some a else lookup_arg ps rest x
  | _, _ => None
  end.

Definition subst_token (params : list string) (args : list (list token))
    (t : token) : list token :=
  match t with
  | TId x => default [t] (lookup_arg params args x)
  | _ => [t]
  end.

(** One replacement: the replacement list of the macro with each parameter
    replaced by the tokens of its argument.  Arguments are given as they are
    after their own macro expansion (ISO C 6.10.3.1); rescanning of the
    result is not part of this step. *)
Definition replace (m : macro) (args : list (list token)) : option (list token) :=
  match m with
  | ObjectLike body =>
      match args with
      | [] => Some body
      | _ => None
      end
  | FunctionLike params body =>
      if decide (length args = length params)
      then Some (concat (map (subst_token params args) body))
      else None
  end.

Definition expand (E : tu) (name : string) (args : list (list token))
    : option (list token) :=
  match macros E !! name with
  | Some m => replace m args
  | None => None
  end.

(** The value of an object-like macro whose replacement list is a single
    integer constant, as [#if] or an initialiser would read it. *)
Definition macro_int (E : tu) (name : string) : option Z :=
  match expand E name [] with
  | Some [TNum n] => Some (Z.of_N n)
  | _ => None
  end.

(** ** The expressions the replacement lists spell *)

Inductive expr :=
  | EConst (n : N)
  | EId (x : string)
  | EParen (e : expr)
  | EArrow (e : expr) (f : string)
  | EPostInc (e : expr).

Fixpoint render (e : expr) : list token :=
  match e with
  | EConst n => [TNum n]
  | EId x => [TId x]
  | EParen e => TPunct LParen :: render e ++ [TPunct RParen]
  | EArrow e f => render e ++ [TPunct Arrow; TId f]
  | EPostInc e => render e ++ [TPunct PlusPlus]
  end.

(** Postfix operators after an operand already read. *)
Fixpoint parse_postfix (e : expr) (ts : list token) : expr * list token :=
  match ts with
  | TPunct Arrow :: TId f :: rest => parse_postfix (EArrow e f) rest
  | TPunct PlusPlus :: rest => parse_postfix (EPostInc e) rest
  | _ => (e, ts)
  end.

(** A postfix expression at the head of [ts]; [fuel] bounds the nesting of
    parentheses. *)
Fixpoint parse_expr (fuel : nat) (ts : list token) : option (expr * list token) :=
  match fuel with
  | O => None
  | S k =>
      match ts with
      | TNum n :: rest => Some (parse_postfix (EConst n) rest)
      | TId x :: rest => Some (parse_postfix (EId x) rest)
      | TPunct LParen :: rest =>
          match parse_expr k rest with
          | Some (e, TPunct RParen :: rest') => Some (parse_postfix (EParen e) rest')
          | _ => None
          end
      | _ => None
      end
  end.

Definition parse (ts : list token) : option expr :=
  match parse_expr (length ts) ts with
  | Some (e, []) => Some e
  | _ => None
  end.

(** ** Evaluation of those expressions in a running program *)

(** What a variable or a member of an object holds: an [int], a pointer to
    an object, or an array (as [jmp_buf] is). *)
Inductive content :=
  | CInt (n : Z)
  | CPtr (a : Z)
  | CArray (elems : list Z).

(** The variables in scope where the expression stands, and the objects
    that pointers point to, each with its members. *)
Record cstate := mkState {
  vars : gmap string content;
  objects : gmap Z (gmap string content)
}.

(** What an lvalue designates: a variable, or member [f] of the object
    at [a]. *)
Inductive lvalue :=
  | LVar (x : string)
  | LMember (a : Z) (f : string).

(** [VDecay l] is the pointer to the first element of the array that [l]
    designates. *)
Inductive value :=
  | VInt (n : Z)
  | VPtr (a : Z)
  | VDecay (l : lvalue).

Definition INT_MAX : Z := 2147483647.

Definition load (σ : cstate) (l : lvalue) : option content :=
  match l with
  | LVar x => vars σ !! x
  | LMember a f =>
      match objects σ !! a with
      | Some o => o !! f
      | None => None
      end
  end.

Definition store (σ : cstate) (l : lvalue) (c : content) : cstate :=
  match l with
  | LVar x => mkState (<[x := c]> (vars σ)) (objects σ)
  | LMember a f => mkState (vars σ) (alter (<[f := c]>) a (objects σ))
  end.

(** The value of an lvalue that holds [c]: what it holds, or, for an array,
    the pointer to its first element. *)
Definition rvalue (l : lvalue) (c : content) : value :=
  match c with
  | CInt n => VInt n
  | CPtr a => VPtr a
  | CArray _ => VDecay l
  end.

Definition has_member (σ : cstate) (a : Z) (f : string) : bool :=
  bool_decide (is_Some (load σ (LMember a f))).

(** Whether [a] is the address of an object.  Only such a pointer can be
    stepped to the next address; a null pointer or one past the last
    object cannot. *)
Definition is_object (σ : cstate) (a : Z) : bool :=
  bool_decide (is_Some (objects σ !! a)).

(** [None] is undefined behaviour or a constraint violation.  An identifier
    names the variable in scope if there is one, which hides an enumeration
    constant of the same name, and the enumeration constant of the
    translation unit otherwise.  The operand of [++] is an lvalue that
    holds an [int] below [INT_MAX] or a pointer to an object: a variable or
    a member. *)
Fixpoint eval (E : tu) (e : expr) (σ : cstate) : option (value * cstate) :=
  match e with
  | EConst n => Some (VInt (Z.of_N n), σ)
  | EId x =>
      match vars σ !! x with
      | Some c => Some (rvalue (LVar x) c, σ)
      | None =>
          match decls E !! x with
          | Some (DEnumerator v) => Some (VInt v, σ)
          | _ => None
          end
      end
  | EParen e => eval E e σ
  | EArrow e f =>
      match eval E e σ with
      | Some (VPtr a, σ') =>
          match load σ' (LMember a f) with
          | Some c => Some (rvalue (LMember a f) c, σ')
          | None => None
          end
      | _ => None
      end
  | EPostInc e =>
      match eval_lvalue E e σ with
      | Some (l, σ') =>
          match load σ' l with
          | Some (CInt n) =>
              if decide (n < INT_MAX)
              then Some (VInt n, store σ' l (CInt (n + 1)))
              else None
          | Some (CPtr a) =>
              if is_object σ' a
              then Some (VPtr a, store σ' l (CPtr (a + 1)))
              else None
          | _ => None
          end
      | None => None
      end
  end
with eval_lvalue (E : tu) (e : expr) (σ : cstate) : option (lvalue * cstate) :=
  match e with
  | EId x =>
      match vars σ !! x with
      | Some _ => Some (LVar x, σ)
      | None => None
      end
  | EParen e => eval_lvalue E e σ
  | EArrow e f =>
      match eval E e σ with
      | Some (VPtr a, σ') =>
          if has_member σ' a f then Some (LMember a f, σ') else None
      | _ => None
      end
  | _ => None
  end.

(** A use of macro [name] with arguments [args], evaluated in state [σ]. *)
Definition eval_macro (E : tu) (name : string) (args : list (list token))
    (σ : cstate) : option (value * cstate) :=
  match expand E name args with
  | Some ts =>
      match parse ts with
      | Some e => eval E e σ
      | None => None
      end
  | None => None
  end.

(** Conversion of a scalar to a truth value: nonzero is true. *)
Definition truthy (v : Z) : bool := negb (v =? 0).

(** ** The enumerated type *)

(** The two enumeration constants that the typedef line declares. *)
Inductive boolean_t_enumerator := B_FALSE | B_TRUE.

Definition boolean_t_name (b : boolean_t_enumerator) : string :=
  match b with
  | B_FALSE => "B_FALSE"
  | B_TRUE => "B_TRUE"
  end.

(** The integer value the translation unit gives to a member. *)
Definition boolean_t_value (E : tu) (b : boolean_t_enumerator) : option Z :=
  match decls E !! boolean_t_name b with
  | Some (DEnumerator v) => Some v
  | _ => None
  end.

Definition boolean_t_of_bool (b : bool) : boolean_t_enumerator :=
  if b then B_TRUE else B_FALSE.

Definition bool_of_boolean_t (b : boolean_t_enumerator) : bool :=
  match b with
  | B_FALSE => false
  | B_TRUE => true
  end.

(** Values that an object of the enumerated type [tname] can hold.  An
    enumerated type is an integer type; which one is left to the
    implementation (char, or a signed or an unsigned integer type that
    represents all the enumeration constants, ISO C 6.7.2.2), and each of
    these represents 0 to 127.  The function is true on that common range
    only, so [true] holds for every implementation. *)
Definition enum_holds (E : tu) (tname : string) (v : Z) : bool :=
  match decls E !! tname with
  | Some (DTypedefEnum _) => (0 <=? v) && (v <=? 127)
  | _ => false
  end.

(** ** The translation unit after the header *)

(** The macro table and the declarations that a successful first inclusion
    leaves behind; [compat_h_inv] below shows that this is what [compat_h]
    computes. *)
Definition macros_after (M : gmap string macro) : gmap string macro :=
  let M' :=
    <["EXIT_USAGE" := EXIT_USAGE]>
    (<["EXIT_FAILURE" := EXIT_FAILURE]>
    (<["EXIT_SUCCESS" := EXIT_SUCCESS]>
    (<["PATH_MAX" := PATH_MAX]>
    (<["MILLISEC" := MILLISEC]>
    (<["COMPAT_H" := COMPAT_H]> M))))) in
  match M !! "png_jmpbuf" with
  | Some _ => M'
  | None => <["png_jmpbuf" := png_jmpbuf]> M'
  end.

Definition decls_after (D : gmap string decl) : gmap string decl :=
  <["boolean_t" := DTypedefEnum ["B_FALSE"; "B_TRUE"]]>
  (<["B_TRUE" := DEnumerator 1]>
  (<["B_FALSE" := DEnumerator 0]> D)).

(** A translation unit that the header can be included into: the guard is
    not defined, every macro of the header is undefined or already has the
    header's definition, no identifier of the typedef line is an object-like
    macro, and the three identifiers it declares are free. *)
Definition agrees (E : tu) (name : string) (m : macro) : Prop :=
  macros E !! name = None ∨ macros E !! name = Some m.

Record compatible (E : tu) : Prop := {
  compat_guard : macros E !! "COMPAT_H" = None;
  compat_millisec : agrees E "MILLISEC" MILLISEC;
  compat_path_max : agrees E "PATH_MAX" PATH_MAX;
  compat_exit_success : agrees E "EXIT_SUCCESS" EXIT_SUCCESS;
  compat_exit_failure : agrees E "EXIT_FAILURE" EXIT_FAILURE;
  compat_exit_usage : agrees E "EXIT_USAGE" EXIT_USAGE;
  compat_line :
    first_macro E ["typedef"; "enum"; "B_FALSE"; "B_TRUE"; "boolean_t"] = None;
  compat_b_false : decls E !! "B_FALSE" = None;
  compat_b_true : decls E !! "B_TRUE" = None;
  compat_boolean_t : decls E !! "boolean_t" = None
}.

(** [E'] is [E] after its first inclusion of the header. *)
Definition includes (E E' : tu) : Prop :=
  macros E !! "COMPAT_H" = None ∧ compat_h E = Ok E'.

Definition exit_codes : list string :=
  ["EXIT_SUCCESS"; "EXIT_FAILURE"; "EXIT_USAGE"].

(** ** Translation units and program states used in the examples *)

(** [compat.h] included into an empty translation unit. *)
Definition compat_tu : tu := mkTu (macros_after ∅) (decls_after ∅).

(** The accessor as libpng 1.4 and later define it in png.h: the
    dereference, in parentheses, of
    [png_set_longjmp_fn((png_ptr), longjmp, (sizeof (jmp_buf)))]. *)
Definition libpng_png_jmpbuf : macro :=
  FunctionLike ["png_ptr"]
    [TPunct LParen; TPunct Star; TId "png_set_longjmp_fn"; TPunct LParen;
     TPunct LParen; TId "png_ptr"; TPunct RParen; TPunct Comma;
     TId "longjmp"; TPunct Comma;
     TPunct LParen; TId "sizeof"; TPunct LParen; TId "jmp_buf"; TPunct RParen;
     TPunct RParen; TPunct RParen; TPunct RParen].

(** A translation unit that has included such a png.h, before and after it
    includes compat.h. *)
Definition libpng_tu : tu := mkTu {[ "png_jmpbuf" := libpng_png_jmpbuf ]} ∅.
Definition libpng_compat_tu : tu :=
  mkTu (macros_after (macros libpng_tu)) (decls_after ∅).

(** A translation unit whose limits.h has defined PATH_MAX as 4096. *)
Definition linux_tu : tu := mkTu {[ "PATH_MAX" := ObjectLike [TNum 4096%N] ]} ∅.

(** A translation unit whose system headers have declared the same
    enumeration already. *)
Definition solaris_tu : tu := mkTu ∅ (decls_after ∅).

(** A program state: variable [png] points to the first of two objects
    that each have a member [jmpbuf], an array. *)
Definition png_state : cstate :=
  mkState {[ "png" := CPtr 7 ]}
    {[ 7 := {[ "jmpbuf" := CArray [0; 0] ]};
       8 := {[ "jmpbuf" := CArray [0; 0] ]} ]}.

(** The same state with [png] moved on to the second object. *)
Definition png_state_next : cstate :=
  mkState {[ "png" := CPtr 8 ]} (objects png_state).

(** A state in which a variable named [B_TRUE] is in scope. *)
Definition shadow_state : cstate :=
  mkState {[ "B_TRUE" := CInt 5 ]} ∅.

(** ** What the header may touch *)

(** The names the header defines as macros, and the identifiers it
    declares. *)
Definition header_macros : list string :=
  ["COMPAT_H"; "MILLISEC"; "PATH_MAX"; "EXIT_SUCCESS"; "EXIT_FAILURE";
   "EXIT_USAGE"; "png_jmpbuf"].

Definition header_identifiers : list string :=
  ["B_FALSE"; "B_TRUE"; "boolean_t"].

(** [E'] has every macro and every declaration of [E], unchanged. *)
Definition extends (E E' : tu) : Prop :=
  macros E ⊆ macros E' ∧ decls E ⊆ decls E'.

(** A directive that, when it succeeds, only adds to the translation unit. *)
Definition monotone (d : directive) : Prop :=
  ∀ E E', d E = Ok E' → extends E E'.

(** The macros the header defines without a test of their own, and the
    identifiers of its typedef line. *)
Definition header_constants : list (string * macro) :=
  [("MILLISEC", MILLISEC); ("PATH_MAX", PATH_MAX);
   ("EXIT_SUCCESS", EXIT_SUCCESS); ("EXIT_FAILURE", EXIT_FAILURE);
   ("EXIT_USAGE", EXIT_USAGE)].

Definition typedef_line : list string :=
  ["typedef"; "enum"; "B_FALSE"; "B_TRUE"; "boolean_t"].

(** * Properties of the directives *)

Lemma seq_ok_inv (d1 d2 : directive) E E' :
  (d1 >=> d2) E = Ok E' → ∃ E1, d1 E = Ok E1 ∧ d2 E1 = Ok E'.
Proof.
  unfold seq, bind. destruct (d1 E) as [E1|e]; [eauto | discriminate].
Qed.

Lemma seq_ok (d1 d2 : directive) E E1 :
  d1 E = Ok E1 → (d1 >=> d2) E = d2 E1.
Proof. unfold seq, bind. by intros ->. Qed.

Lemma define_inv name m E E' :
  define name m E = Ok E' →
  macros E' = <[name := m]> (macros E) ∧ decls E' = decls E.
Proof.
  unfold define. destruct (macros E !! name) as [m'|] eqn:Hl.
  - case_decide; [|discriminate]. intros [= <-]. subst m'.
    by rewrite insert_id.
  - by intros [= <-].
Qed.

Lemma define_agrees name m E :
  agrees E name m →
  ∃ E', define name m E = Ok E' ∧
        macros E' = <[name := m]> (macros E) ∧ decls E' = decls E.
Proof.
  intros Ha.
  assert (∃ E', define name m E = Ok E') as [E' HE'].
  { unfold define. destruct Ha as [-> | ->]; [eauto|].
    rewrite decide_True; eauto. }
  exists E'. split; [done|]. by apply define_inv.
Qed.

Lemma declare_inv x d E E' :
  declare x d E = Ok E' →
  decls E !! x = None ∧ macros E' = macros E ∧ decls E' = <[x := d]> (decls E).
Proof.
  unfold declare. destruct (decls E !! x); [discriminate|]. by intros [= <-].
Qed.

Lemma ifndef_defined name group E m :
  macros E !! name = Some m → ifndef name group E = Ok E.
Proof. unfold ifndef. by intros ->. Qed.

Lemma ifndef_undefined name group E :
  macros E !! name = None → ifndef name group E = group E.
Proof. unfold ifndef. by intros ->. Qed.

Lemma first_macro_ext E1 E2 idents :
  (∀ x, x ∈ idents → macros E1 !! x = macros E2 !! x) →
  first_macro E1 idents = first_macro E2 idents.
Proof.
  induction idents as [|x rest IH]; intros Hx; [done|]. simpl.
  rewrite (Hx x) by apply list_elem_of_here.
  assert (first_macro E1 rest = first_macro E2 rest) as ->.
  { apply IH. intros y Hy. apply Hx. by apply list_elem_of_further. }
  done.
Qed.

(** * What an inclusion computes *)

Ltac step_define H :=
  let E1 := fresh "E" in
  let Hd := fresh "Hd" in
  let Hm := fresh "Hm" in
  let HD := fresh "HD" in
  apply seq_ok_inv in H as (E1 & Hd & H);
  apply define_inv in Hd as [Hm HD].

Lemma typedef_boolean_t_inv E E' :
  typedef_enum ["B_FALSE"; "B_TRUE"] "boolean_t" E = Ok E' →
  first_macro E ["typedef"; "enum"; "B_FALSE"; "B_TRUE"; "boolean_t"] = None ∧
  decls E !! "B_FALSE" = None ∧ decls E !! "B_TRUE" = None ∧
  decls E !! "boolean_t" = None ∧
  macros E' = macros E ∧ decls E' = decls_after (decls E).
Proof.
  unfold typedef_enum. simpl app.
  destruct (first_macro E _) as [x|] eqn:Hfm; [discriminate|].
  change (enum_values 0 ["B_FALSE"; "B_TRUE"])
    with [("B_FALSE", 0); ("B_TRUE", 1)].
  simpl declare_all. intros H.
  apply seq_ok_inv in H as (E1 & H1 & H).
  apply seq_ok_inv in H1 as (E2 & H2 & H1).
  apply seq_ok_inv in H1 as (E3 & H3 & H1).
  injection H1 as <-.
  apply declare_inv in H2 as (F2 & M2 & D2).
  apply declare_inv in H3 as (F3 & M3 & D3).
  apply declare_inv in H as (F & M & D).
  rewrite D3, D2 in F. rewrite D2 in F3.
  rewrite lookup_insert_ne in F3 by done.
  rewrite !lookup_insert_ne in F by done.
  repeat split; try done.
  - congruence.
  - unfold decls_after. congruence.
Qed.

Lemma compat_h_group_inv E E' :
  compat_h_group E = Ok E' →
  macros E' = macros_after (macros E) ∧ decls E' = decls_after (decls E) ∧
  decls E !! "B_FALSE" = None.
Proof.
  unfold compat_h_group. intros H.
  do 6 step_define H.
  apply seq_ok_inv in H as (E6 & Ht & H).
  apply typedef_boolean_t_inv in Ht as (_ & Hfree & _ & _ & Hm6 & HD6).
  rewrite HD4, HD3, HD2, HD1, HD0, HD in Hfree.
  assert (macros E6 !! "png_jmpbuf" = macros E !! "png_jmpbuf") as Hpng.
  { rewrite Hm6, Hm4, Hm3, Hm2, Hm1, Hm0, Hm.
    by rewrite !lookup_insert_ne by done. }
  assert (macros E6 =
    <["EXIT_USAGE" := EXIT_USAGE]>
    (<["EXIT_FAILURE" := EXIT_FAILURE]>
    (<["EXIT_SUCCESS" := EXIT_SUCCESS]>
    (<["PATH_MAX" := PATH_MAX]>
    (<["MILLISEC" := MILLISEC]>
    (<["COMPAT_H" := COMPAT_H]> (macros E))))))) as HM6.
  { by rewrite Hm6, Hm4, Hm3, Hm2, Hm1, Hm0, Hm. }
  assert (decls E6 = decls_after (decls E)) as HDE.
  { by rewrite HD6, HD4, HD3, HD2, HD1, HD0, HD. }
  unfold macros_after, ifndef in *.
  rewrite Hpng in H. destruct (macros E !! "png_jmpbuf") as [m|].
  - injection H as <-. by repeat split.
  - apply define_inv in H as [Hm7 HD7]. rewrite Hm7, HD7, HM6. by repeat split.
Qed.

Lemma compat_h_inv E E' :
  macros E !! "COMPAT_H" = None →
  compat_h E = Ok E' →
  macros E' = macros_after (macros E) ∧ decls E' = decls_after (decls E).
Proof.
  intros Hg. unfold compat_h. rewrite ifndef_undefined by done.
  intros (Hm & Hd & _)%compat_h_group_inv. by split.
Qed.

(** X5.  Without the guard a second pass over the body of the header is
    always an error: the enumeration cannot be declared twice. *)
Lemma compat_h_group_twice E E' :
  compat_h_group E = Ok E' → ∃ e, compat_h_group E' = Err e.
Proof.
  intros (_ & Hd & _)%compat_h_group_inv.
  destruct (compat_h_group E') as [E''|e] eqn:H2; [|eauto].
  apply compat_h_group_inv in H2 as (_ & _ & Hfree).
  rewrite Hd in Hfree. unfold decls_after in Hfree.
  rewrite !lookup_insert_ne in Hfree by done.
  by rewrite lookup_insert_eq in Hfree.
Qed.

(** With the guard already defined the header is skipped as a whole. *)
Lemma compat_h_guarded E m :
  macros E !! "COMPAT_H" = Some m → compat_h E = Ok E.
Proof. apply ifndef_defined. Qed.

Lemma macros_after_guard M : is_Some (macros_after M !! "COMPAT_H").
Proof.
  unfold macros_after. destruct (M !! "png_jmpbuf");
    rewrite !lookup_insert_ne by done; rewrite lookup_insert_eq; eauto.
Qed.

(** After a successful inclusion the guard is defined. *)
Lemma compat_h_defines_guard E E' :
  compat_h E = Ok E' → is_Some (macros E' !! "COMPAT_H").
Proof.
  intros H. destruct (macros E !! "COMPAT_H") as [m|] eqn:Hg.
  - rewrite (compat_h_guarded E m Hg) in H. injection H as <-. eauto.
  - apply compat_h_inv in H as [-> _]; [|done]. apply macros_after_guard.
Qed.

(** * Inclusion succeeds on compatible translation units *)

Lemma typedef_boolean_t_ok E :
  first_macro E ["typedef"; "enum"; "B_FALSE"; "B_TRUE"; "boolean_t"] = None →
  decls E !! "B_FALSE" = None → decls E !! "B_TRUE" = None →
  decls E !! "boolean_t" = None →
  ∃ E', typedef_enum ["B_FALSE"; "B_TRUE"] "boolean_t" E = Ok E'.
Proof.
  intros Hfm Hf Ht Hb. unfold typedef_enum. simpl app. rewrite Hfm.
  change (enum_values 0 ["B_FALSE"; "B_TRUE"])
    with [("B_FALSE", 0); ("B_TRUE", 1)].
  simpl declare_all. unfold seq, bind, declare at 1. rewrite Hf.
  unfold declare at 1. simpl decls. rewrite lookup_insert_ne by done.
  rewrite Ht. unfold declare. simpl decls.
  rewrite !lookup_insert_ne by done. rewrite Hb. eauto.
Qed.

Lemma agrees_insert_ne E E1 other m0 name m :
  macros E1 = <[other := m0]> (macros E) → other ≠ name →
  agrees E name m → agrees E1 name m.
Proof.
  unfold agrees. intros -> Hne. by rewrite lookup_insert_ne.
Qed.

Lemma compat_h_succeeds E :
  compatible E → ∃ E', compat_h E = Ok E'.
Proof.
  intros [Hg H1 H2 H3 H4 H5 Hline Hbf Hbt Hb].
  unfold compat_h. rewrite ifndef_undefined by done. unfold compat_h_group.
  destruct (define_agrees "COMPAT_H" COMPAT_H E) as (E0 & Hd0 & Hm0 & HD0);
    [by left|].
  rewrite (seq_ok _ _ _ _ Hd0).
  destruct (define_agrees "MILLISEC" MILLISEC E0)
    as (E1 & Hd1 & Hm1 & HD1).
  { by eapply agrees_insert_ne. }
  rewrite (seq_ok _ _ _ _ Hd1).
  destruct (define_agrees "PATH_MAX" PATH_MAX E1)
    as (E2 & Hd2 & Hm2 & HD2).
  { do 2 (eapply agrees_insert_ne; [done..|]). done. }
  rewrite (seq_ok _ _ _ _ Hd2).
  destruct (define_agrees "EXIT_SUCCESS" EXIT_SUCCESS E2)
    as (E3 & Hd3 & Hm3 & HD3).
  { do 3 (eapply agrees_insert_ne; [done..|]). done. }
  rewrite (seq_ok _ _ _ _ Hd3).
  destruct (define_agrees "EXIT_FAILURE" EXIT_FAILURE E3)
    as (E4 & Hd4 & Hm4 & HD4).
  { do 4 (eapply agrees_insert_ne; [done..|]). done. }
  rewrite (seq_ok _ _ _ _ Hd4).
  destruct (define_agrees "EXIT_USAGE" EXIT_USAGE E4)
    as (E5 & Hd5 & Hm5 & HD5).
  { do 5 (eapply agrees_insert_ne; [done..|]). done. }
  rewrite (seq_ok _ _ _ _ Hd5).
  destruct (typedef_boolean_t_ok E5) as (E6 & Ht).
  - rewrite <- Hline. apply first_macro_ext. intros x Hx.
    rewrite Hm5, Hm4, Hm3, Hm2, Hm1, Hm0.
    set_unfold in Hx.
    destruct Hx as [->|[->|[->|[->|[->|[]]]]]];
      by rewrite !lookup_insert_ne by done.
  - congruence.
  - congruence.
  - congruence.
  - rewrite (seq_ok _ _ _ _ Ht). unfold ifndef.
    destruct (macros E6 !! "png_jmpbuf") as [m|] eqn:Hp; [eauto|].
    unfold define. rewrite Hp. eauto.
Qed.

(** The empty translation unit is compatible, so the hypotheses used below
    can be met. *)
Lemma empty_tu_compatible : compatible empty_tu.
Proof. split; try (by left); done. Qed.

(** * Parsing what [render] spells *)

Lemma parse_expr_render e : ∀ (fuel : nat) rest,
  (length (render e) ≤ fuel)%nat →
  parse_expr fuel (render e ++ rest) = Some (parse_postfix e rest).
Proof.
  induction e as [n|x|e IH|e IH f|e IH]; intros fuel rest Hfuel; simpl in Hfuel.
  - destruct fuel as [|k]; [lia|]. reflexivity.
  - destruct fuel as [|k]; [lia|]. reflexivity.
  - destruct fuel as [|k]; [lia|]. simpl.
    rewrite <- app_assoc. rewrite IH.
    + reflexivity.
    + rewrite length_app in Hfuel. simpl in Hfuel. lia.
  - simpl. rewrite <- app_assoc. rewrite IH.
    + reflexivity.
    + rewrite length_app in Hfuel. lia.
  - simpl. rewrite <- app_assoc. rewrite IH.
    + reflexivity.
    + rewrite length_app in Hfuel. lia.
Qed.

Lemma parse_render e : parse (render e) = Some e.
Proof.
  unfold parse.
  rewrite <- (app_nil_r (render e)) at 2.
  rewrite parse_expr_render by done. reflexivity.
Qed.

Lemma macros_after_lookup M name m :
  name ≠ "png_jmpbuf" →
  (<["EXIT_USAGE" := EXIT_USAGE]>
    (<["EXIT_FAILURE" := EXIT_FAILURE]>
    (<["EXIT_SUCCESS" := EXIT_SUCCESS]>
    (<["PATH_MAX" := PATH_MAX]>
    (<["MILLISEC" := MILLISEC]>
    (<["COMPAT_H" := COMPAT_H]> M))))) : gmap string macro) !! name = Some m →
  macros_after M !! name = Some m.
Proof.
  intros Hne H. unfold macros_after. destruct (M !! "png_jmpbuf"); [done|].
  by rewrite lookup_insert_ne.
Qed.

Lemma includes_compatible E :
  compatible E → ∃ E', includes E E'.
Proof.
  intros Hc. destruct (compat_h_succeeds E Hc) as [E' H].
  exists E'. split; [apply Hc | done].
Qed.

(** What is defined and declared once the header has been included. *)
Section Included.
Context (E E' : tu) (Hinc : includes E E').

Lemma includes_inv :
  macros E' = macros_after (macros E) ∧ decls E' = decls_after (decls E).
Proof. destruct Hinc as [Hg H]. by apply compat_h_inv. Qed.

Ltac header_macro :=
  destruct includes_inv as [-> _];
  apply macros_after_lookup; [done|]; by simplify_map_eq.

Lemma includes_MILLISEC :
  macros E' !! "MILLISEC" = Some MILLISEC.
Proof. header_macro. Qed.

Lemma includes_PATH_MAX :
  macros E' !! "PATH_MAX" = Some PATH_MAX.
Proof. header_macro. Qed.

Lemma includes_EXIT_SUCCESS :
  macros E' !! "EXIT_SUCCESS" = Some EXIT_SUCCESS.
Proof. header_macro. Qed.

Lemma includes_EXIT_FAILURE :
  macros E' !! "EXIT_FAILURE" = Some EXIT_FAILURE.
Proof. header_macro. Qed.

Lemma includes_EXIT_USAGE :
  macros E' !! "EXIT_USAGE" = Some EXIT_USAGE.
Proof. header_macro. Qed.

Lemma includes_png_jmpbuf :
  macros E !! "png_jmpbuf" = None →
  macros E' !! "png_jmpbuf" = Some png_jmpbuf.
Proof.
  intros Hp. destruct includes_inv as [-> _].
  unfold macros_after. rewrite Hp. apply lookup_insert_eq.
Qed.

Lemma includes_boolean_t :
  decls E' !! "boolean_t" = Some (DTypedefEnum ["B_FALSE"; "B_TRUE"]) ∧
  decls E' !! "B_FALSE" = Some (DEnumerator 0) ∧
  decls E' !! "B_TRUE" = Some (DEnumerator 1).
Proof.
  destruct includes_inv as [_ ->]. unfold decls_after. by simplify_map_eq.
Qed.
End Included.

Lemma macro_int_object E name n :
  macros E !! name = Some (ObjectLike [TNum n]) →
  macro_int E name = Some (Z.of_N n).
Proof. unfold macro_int, expand. by intros ->. Qed.

(** * The model at work *)

Example compat_h_empty : compat_h empty_tu = Ok compat_tu.
Proof. vm_compute. reflexivity. Qed.

(** A PATH_MAX already defined with another value is a redefinition. *)
Example compat_h_linux : compat_h linux_tu = Err (MacroRedefined "PATH_MAX").
Proof. vm_compute. reflexivity. Qed.

(** The enumeration cannot be declared on top of an earlier declaration. *)
Example compat_h_solaris : compat_h solaris_tu = Err (Redeclared "B_FALSE").
Proof. vm_compute. reflexivity. Qed.

(** The argument of the fallback accessor is evaluated once. *)
Example png_jmpbuf_postinc :
  eval_macro compat_tu "png_jmpbuf" [render (EPostInc (EId "png"))] png_state =
  Some (VDecay (LMember 7 "jmpbuf"), png_state_next).
Proof. vm_compute. reflexivity. Qed.

(** With no object behind the pointer the access is undefined. *)
Example png_jmpbuf_dangling :
  eval_macro compat_tu "png_jmpbuf" [[TId "png"]]
    (mkState {[ "png" := CPtr 7 ]} ∅) = None.
Proof. vm_compute. reflexivity. Qed.

(** A variable in scope hides the enumeration constant of the same name. *)
Example B_TRUE_hidden :
  eval compat_tu (EId "B_TRUE") shadow_state = Some (VInt 5, shadow_state).
Proof. vm_compute. reflexivity. Qed.

(** A member that holds an [int] can be incremented. *)
Example member_postinc :
  eval compat_tu (EPostInc (EArrow (EId "p") "n"))
    (mkState {[ "p" := CPtr 1 ]} {[ 1 := {[ "n" := CInt 41 ]} ]}) =
  Some (VInt 41, mkState {[ "p" := CPtr 1 ]} {[ 1 := {[ "n" := CInt 42 ]} ]}).
Proof. vm_compute. reflexivity. Qed.

(** * The constants *)

(** C1.  After the header is included, the three exit-status macros have the
    values 0, 1 and 2: EXIT_SUCCESS is 0, EXIT_FAILURE is 1 and EXIT_USAGE
    is 2. *)
Theorem exit_status_values E E' :
  includes E E' →
  macro_int E' "EXIT_SUCCESS" = Some 0 ∧
  macro_int E' "EXIT_FAILURE" = Some 1 ∧
  macro_int E' "EXIT_USAGE" = Some 2.
Proof.
  intros H. split; [|split].
  - apply (macro_int_object E' "EXIT_SUCCESS" 0%N). by eapply includes_EXIT_SUCCESS.
  - apply (macro_int_object E' "EXIT_FAILURE" 1%N). by eapply includes_EXIT_FAILURE.
  - apply (macro_int_object E' "EXIT_USAGE" 2%N). by eapply includes_EXIT_USAGE.
Qed.

Lemma exit_status_values_witness :
  includes empty_tu compat_tu ∧
  macro_int compat_tu "EXIT_SUCCESS" = Some 0 ∧
  macro_int compat_tu "EXIT_FAILURE" = Some 1 ∧
  macro_int compat_tu "EXIT_USAGE" = Some 2.
Proof.
  assert (includes empty_tu compat_tu) as H.
  { split; [reflexivity | vm_compute; reflexivity]. }
  split; [exact H | exact (exit_status_values empty_tu compat_tu H)].
Defined.

(** C5.  After the header is included, MILLISEC is 1000. *)
Theorem millisec_value E E' :
  includes E E' → macro_int E' "MILLISEC" = Some 1000.
Proof.
  intros H. apply (macro_int_object E' "MILLISEC" 1000%N).
  by eapply includes_MILLISEC.
Qed.

Lemma millisec_value_witness :
  includes empty_tu compat_tu ∧ macro_int compat_tu "MILLISEC" = Some 1000.
Proof.
  assert (includes empty_tu compat_tu) as H.
  { split; [reflexivity | vm_compute; reflexivity]. }
  split; [exact H | exact (millisec_value empty_tu compat_tu H)].
Defined.

(** C6.  After the header is included, PATH_MAX is 1024. *)
Theorem path_max_value E E' :
  includes E E' → macro_int E' "PATH_MAX" = Some 1024.
Proof.
  intros H. apply (macro_int_object E' "PATH_MAX" 1024%N).
  by eapply includes_PATH_MAX.
Qed.

Lemma path_max_value_witness :
  includes empty_tu compat_tu ∧ macro_int compat_tu "PATH_MAX" = Some 1024.
Proof.
  assert (includes empty_tu compat_tu) as H.
  { split; [reflexivity | vm_compute; reflexivity]. }
  split; [exact H | exact (path_max_value empty_tu compat_tu H)].
Defined.

(** C10.  The three exit-status macros have pairwise different values, and
    EXIT_SUCCESS is the only one whose value is 0. *)
Theorem exit_status_distinct E E' :
  includes E E' →
  (∀ a, a ∈ exit_codes → is_Some (macro_int E' a)) ∧
  (∀ a b, a ∈ exit_codes → b ∈ exit_codes →
     macro_int E' a = macro_int E' b → a = b) ∧
  (∀ a, a ∈ exit_codes → (macro_int E' a = Some 0 ↔ a = "EXIT_SUCCESS")).
Proof.
  intros H.
  pose proof (macro_int_object E' "EXIT_SUCCESS" 0%N (includes_EXIT_SUCCESS _ _ H)) as Hs.
  pose proof (macro_int_object E' "EXIT_FAILURE" 1%N (includes_EXIT_FAILURE _ _ H)) as Hf.
  pose proof (macro_int_object E' "EXIT_USAGE" 2%N (includes_EXIT_USAGE _ _ H)) as Hu.
  unfold exit_codes. split; [|split].
  - intros a Ha. set_unfold in Ha.
    destruct Ha as [->|[->|[->|[]]]]; eauto.
  - intros a b Ha Hb. set_unfold in Ha. set_unfold in Hb.
    destruct Ha as [->|[->|[->|[]]]]; destruct Hb as [->|[->|[->|[]]]];
      rewrite ?Hs, ?Hf, ?Hu; intros Heq; try reflexivity; discriminate Heq.
  - intros a Ha. set_unfold in Ha.
    destruct Ha as [->|[->|[->|[]]]]; rewrite ?Hs, ?Hf, ?Hu;
      split; intros Heq; try reflexivity; discriminate Heq.
Qed.

Lemma exit_status_distinct_witness :
  includes empty_tu compat_tu ∧
  (∀ a, a ∈ exit_codes → is_Some (macro_int compat_tu a)) ∧
  (∀ a b, a ∈ exit_codes → b ∈ exit_codes →
     macro_int compat_tu a = macro_int compat_tu b → a = b) ∧
  (∀ a, a ∈ exit_codes → (macro_int compat_tu a = Some 0 ↔ a = "EXIT_SUCCESS")).
Proof.
  assert (includes empty_tu compat_tu) as H.
  { split; [reflexivity | vm_compute; reflexivity]. }
  split; [exact H | exact (exit_status_distinct empty_tu compat_tu H)].
Defined.

(** * The fallback accessor *)

Lemma replace_png_jmpbuf arg :
  replace png_jmpbuf [arg] =
  Some ([TPunct LParen; TPunct LParen] ++ arg ++
        [TPunct RParen; TPunct Arrow; TId "jmpbuf"; TPunct RParen]).
Proof.
  reflexivity.
Qed.

Lemma render_field_access a f :
  render (EParen (EArrow (EParen a) f)) =
  [TPunct LParen; TPunct LParen] ++ render a ++
  [TPunct RParen; TPunct Arrow; TId f; TPunct RParen].
Proof. simpl. by rewrite <- !app_assoc. Qed.

Lemma includes_expand_png_jmpbuf E E' :
  includes E E' →
  macros E !! "png_jmpbuf" = None →
  ∀ arg : list token,
    expand E' "png_jmpbuf" [arg] =
    Some ([TPunct LParen; TPunct LParen] ++ arg ++
          [TPunct RParen; TPunct Arrow; TId "jmpbuf"; TPunct RParen]).
Proof.
  intros H Hp arg. unfold expand. rewrite (includes_png_jmpbuf E E' H Hp).
  apply replace_png_jmpbuf.
Qed.

(** C2.  When png_jmpbuf is not defined before the header is included, the
    header defines it, and a use png_jmpbuf(arg) is replaced, for every
    argument, by the tokens of ((arg)->jmpbuf): the access to member jmpbuf
    of what the argument points to, in parentheses.  Read as an expression
    it is that member access, and the parentheses do not change what it
    denotes. *)
Theorem png_jmpbuf_expansion E E' :
  includes E E' →
  macros E !! "png_jmpbuf" = None →
  (∀ arg : list token,
     expand E' "png_jmpbuf" [arg] =
     Some ([TPunct LParen; TPunct LParen] ++ arg ++
           [TPunct RParen; TPunct Arrow; TId "jmpbuf"; TPunct RParen])) ∧
  (∀ a : expr, ∃ ts,
     expand E' "png_jmpbuf" [render a] = Some ts ∧
     parse ts = Some (EParen (EArrow (EParen a) "jmpbuf")) ∧
     ∀ σ, eval E' (EParen (EArrow (EParen a) "jmpbuf")) σ =
          eval E' (EArrow a "jmpbuf") σ).
Proof.
  intros H Hp.
  pose proof (includes_expand_png_jmpbuf E E' H Hp) as Hx.
  split; [exact Hx|].
  intros a. eexists. split; [apply Hx|]. split.
  - rewrite <- render_field_access. apply parse_render.
  - reflexivity.
Qed.

Lemma png_jmpbuf_expansion_witness :
  includes empty_tu compat_tu ∧
  macros empty_tu !! "png_jmpbuf" = None ∧
  (∀ arg : list token,
     expand compat_tu "png_jmpbuf" [arg] =
     Some ([TPunct LParen; TPunct LParen] ++ arg ++
           [TPunct RParen; TPunct Arrow; TId "jmpbuf"; TPunct RParen])) ∧
  (∀ a : expr, ∃ ts,
     expand compat_tu "png_jmpbuf" [render a] = Some ts ∧
     parse ts = Some (EParen (EArrow (EParen a) "jmpbuf")) ∧
     ∀ σ, eval compat_tu (EParen (EArrow (EParen a) "jmpbuf")) σ =
          eval compat_tu (EArrow a "jmpbuf") σ).
Proof.
  assert (includes empty_tu compat_tu) as H.
  { split; [reflexivity | vm_compute; reflexivity]. }
  assert (macros empty_tu !! "png_jmpbuf" = None) as Hp by reflexivity.
  split; [exact H | split; [exact Hp|]].
  exact (png_jmpbuf_expansion empty_tu compat_tu H Hp).
Defined.

(** C3.  When png_jmpbuf is already defined, including the header leaves
    that definition as it is, so uses of png_jmpbuf are replaced as before;
    and whenever an inclusion changes what png_jmpbuf is, it was undefined
    before and is the fallback afterwards. *)
Theorem png_jmpbuf_kept E E' :
  compat_h E = Ok E' →
  (∀ m, macros E !! "png_jmpbuf" = Some m →
     macros E' !! "png_jmpbuf" = Some m ∧
     ∀ args, expand E' "png_jmpbuf" args = expand E "png_jmpbuf" args) ∧
  (macros E' !! "png_jmpbuf" ≠ macros E !! "png_jmpbuf" →
     macros E !! "png_jmpbuf" = None ∧
     macros E' !! "png_jmpbuf" = Some png_jmpbuf).
Proof.
  intros H.
  destruct (macros E !! "COMPAT_H") as [g|] eqn:Hg.
  - rewrite (compat_h_guarded E g Hg) in H. injection H as <-.
    split; [by intros m ->|]. intros Hne. by destruct Hne.
  - apply compat_h_inv in H as [HM _]; [|done].
    assert (∀ m, macros E !! "png_jmpbuf" = Some m →
                 macros E' !! "png_jmpbuf" = Some m) as Hkeep.
    { intros m Hm. rewrite HM. unfold macros_after. rewrite Hm.
      by rewrite !lookup_insert_ne by done. }
    split.
    + intros m Hm. split; [by apply Hkeep|].
      intros args. unfold expand. by rewrite (Hkeep m Hm), Hm.
    + intros Hne. destruct (macros E !! "png_jmpbuf") as [m|] eqn:Hm.
      * destruct Hne. by apply Hkeep.
      * split; [done|]. rewrite HM. unfold macros_after. rewrite Hm.
        apply lookup_insert_eq.
Qed.

Lemma png_jmpbuf_kept_witness :
  compat_h libpng_tu = Ok libpng_compat_tu ∧
  (∀ m, macros libpng_tu !! "png_jmpbuf" = Some m →
     macros libpng_compat_tu !! "png_jmpbuf" = Some m ∧
     ∀ args, expand libpng_compat_tu "png_jmpbuf" args =
             expand libpng_tu "png_jmpbuf" args) ∧
  (macros libpng_compat_tu !! "png_jmpbuf" ≠ macros libpng_tu !! "png_jmpbuf" →
     macros libpng_tu !! "png_jmpbuf" = None ∧
     macros libpng_compat_tu !! "png_jmpbuf" = Some png_jmpbuf).
Proof.
  assert (compat_h libpng_tu = Ok libpng_compat_tu) as H.
  { vm_compute. reflexivity. }
  split; [exact H | exact (png_jmpbuf_kept libpng_tu libpng_compat_tu H)].
Defined.

(** * The enumerated type *)

(** C4, as the code has it.  The header declares boolean_t as an enumerated
    type with exactly two enumeration constants, B_FALSE and B_TRUE; the
    truth values false and true correspond one to one to them, false to
    B_FALSE with value 0 and true to B_TRUE with value 1.  (The type itself
    is an integer type: see [boolean_t_holds_other_values].) *)
Theorem boolean_t_two_enumerators E E' :
  includes E E' →
  ∃ members,
    decls E' !! "boolean_t" = Some (DTypedefEnum members) ∧
    length members = 2%nat ∧
    NoDup members ∧
    (∀ x, x ∈ members ↔ ∃ b : bool, x = boolean_t_name (boolean_t_of_bool b)) ∧
    (∀ b : bool, boolean_t_value E' (boolean_t_of_bool b) = Some (Z.b2z b)) ∧
    (∀ b c : bool,
       boolean_t_value E' (boolean_t_of_bool b) =
       boolean_t_value E' (boolean_t_of_bool c) → b = c).
Proof.
  intros H. destruct (includes_boolean_t E E' H) as (Ht & Hf & Hv).
  assert (∀ b : bool, boolean_t_value E' (boolean_t_of_bool b) = Some (Z.b2z b))
    as Hval.
  { intros []; unfold boolean_t_value; simpl; by rewrite ?Hf, ?Hv. }
  exists ["B_FALSE"; "B_TRUE"]. split; [exact Ht|]. split; [done|].
  split; [|split; [|split]].
  - apply NoDup_cons. split; [|apply NoDup_singleton].
    rewrite not_elem_of_cons. split; [done | apply not_elem_of_nil].
  - intros x. split.
    + intros Hx. set_unfold in Hx. destruct Hx as [->|[->|[]]].
      * by exists false.
      * by exists true.
    + intros [[] ->]; simpl.
      * apply list_elem_of_further, list_elem_of_here.
      * apply list_elem_of_here.
  - exact Hval.
  - intros b c. rewrite !Hval. by destruct b, c.
Qed.

Lemma boolean_t_two_enumerators_witness :
  includes empty_tu compat_tu ∧
  ∃ members,
    decls compat_tu !! "boolean_t" = Some (DTypedefEnum members) ∧
    length members = 2%nat ∧
    NoDup members ∧
    (∀ x, x ∈ members ↔ ∃ b : bool, x = boolean_t_name (boolean_t_of_bool b)) ∧
    (∀ b : bool, boolean_t_value compat_tu (boolean_t_of_bool b) = Some (Z.b2z b)) ∧
    (∀ b c : bool,
       boolean_t_value compat_tu (boolean_t_of_bool b) =
       boolean_t_value compat_tu (boolean_t_of_bool c) → b = c).
Proof.
  assert (includes empty_tu compat_tu) as H.
  { split; [reflexivity | vm_compute; reflexivity]. }
  split; [exact H | exact (boolean_t_two_enumerators empty_tu compat_tu H)].
Defined.

(** C4 as it is worded does not hold: boolean_t is not limited to two
    values.  After the header is included, an object of type boolean_t can
    hold 2, which is the value of neither enumeration constant. *)
Lemma boolean_t_holds_other_values :
  includes empty_tu compat_tu ∧
  enum_holds compat_tu "boolean_t" 2 = true ∧
  ∀ b, boolean_t_value compat_tu b ≠ Some 2.
Proof.
  split; [split; [reflexivity | vm_compute; reflexivity]|].
  split; [vm_compute; reflexivity|].
  intros []; vm_compute; discriminate.
Qed.

(** C9.  The members of the enumeration are numbered in the order they are
    written: B_FALSE is 0 and B_TRUE is 1.  Converted to a truth value,
    B_FALSE is false and is the only member that is, and B_TRUE is true. *)
Theorem boolean_t_values E E' :
  includes E E' →
  boolean_t_value E' B_FALSE = Some 0 ∧
  boolean_t_value E' B_TRUE = Some 1 ∧
  (∀ b v, boolean_t_value E' b = Some v → truthy v = bool_of_boolean_t b) ∧
  (∀ b v, boolean_t_value E' b = Some v → (truthy v = false ↔ b = B_FALSE)) ∧
  (∀ v, boolean_t_value E' B_TRUE = Some v → truthy v = true).
Proof.
  intros H. destruct (includes_boolean_t E E' H) as (_ & Hf & Ht).
  assert (boolean_t_value E' B_FALSE = Some 0) as Vf.
  { unfold boolean_t_value. simpl. by rewrite Hf. }
  assert (boolean_t_value E' B_TRUE = Some 1) as Vt.
  { unfold boolean_t_value. simpl. by rewrite Ht. }
  split; [exact Vf|]. split; [exact Vt|]. split; [|split].
  - intros [] v; rewrite ?Vf, ?Vt; by intros [= <-].
  - intros [] v; rewrite ?Vf, ?Vt; intros [= <-]; by split.
  - intros v. rewrite Vt. by intros [= <-].
Qed.

Lemma boolean_t_values_witness :
  includes empty_tu compat_tu ∧
  boolean_t_value compat_tu B_FALSE = Some 0 ∧
  boolean_t_value compat_tu B_TRUE = Some 1 ∧
  (∀ b v, boolean_t_value compat_tu b = Some v →
     truthy v = bool_of_boolean_t b) ∧
  (∀ b v, boolean_t_value compat_tu b = Some v →
     (truthy v = false ↔ b = B_FALSE)) ∧
  (∀ v, boolean_t_value compat_tu B_TRUE = Some v → truthy v = true).
Proof.
  assert (includes empty_tu compat_tu) as H.
  { split; [reflexivity | vm_compute; reflexivity]. }
  split; [exact H | exact (boolean_t_values empty_tu compat_tu H)].
Defined.

(** * The include guard *)

Lemma compat_h_again E E' :
  compat_h E = Ok E' → compat_h E' = Ok E'.
Proof.
  intros [m Hm]%compat_h_defines_guard. by eapply compat_h_guarded.
Qed.

Lemma include_n_guarded n : ∀ E,
  is_Some (macros E !! "COMPAT_H") → include_n n E = Ok E.
Proof.
  induction n as [|k IH]; intros E Hg; [done|]. simpl.
  destruct Hg as [m Hm].
  rewrite (seq_ok _ _ _ _ (compat_h_guarded E m Hm)). apply IH. eauto.
Qed.

(** C8.  Including the header two or more times gives what including it
    once gives: the same translation unit, or the same diagnostic.  After a
    successful inclusion every further one changes nothing and defines or
    declares nothing again. *)
Theorem include_idempotent (n : nat) E :
  (1 ≤ n)%nat →
  include_n n E = compat_h E ∧
  (∀ E', compat_h E = Ok E' →
     include_n n E = Ok E' ∧ compat_h E' = Ok E' ∧ include_n n E' = Ok E').
Proof.
  intros Hn. destruct n as [|k]; [lia|].
  assert (include_n (S k) E = compat_h E) as Heq.
  { simpl. unfold seq, bind. destruct (compat_h E) as [E1|e] eqn:H1; [|done].
    apply include_n_guarded. by eapply compat_h_defines_guard. }
  split; [exact Heq|].
  intros E' H. split; [by rewrite Heq|]. split.
  - by eapply compat_h_again.
  - apply include_n_guarded. by eapply compat_h_defines_guard.
Qed.

Lemma include_idempotent_witness :
  (1 ≤ 3)%nat ∧
  include_n 3 empty_tu = compat_h empty_tu ∧
  (∀ E', compat_h empty_tu = Ok E' →
     include_n 3 empty_tu = Ok E' ∧ compat_h E' = Ok E' ∧
     include_n 3 E' = Ok E').
Proof.
  assert (1 ≤ 3)%nat as H by lia.
  split; [exact H | exact (include_idempotent 3 empty_tu H)].
Defined.

(** * Evaluation of the exported symbols *)

Lemma eval_macro_object E name n σ :
  macros E !! name = Some (ObjectLike [TNum n]) →
  eval_macro E name [] σ = Some (VInt (Z.of_N n), σ).
Proof. unfold eval_macro, expand. by intros ->. Qed.

Lemma eval_macro_png_jmpbuf E E' a σ :
  includes E E' →
  macros E !! "png_jmpbuf" = None →
  eval_macro E' "png_jmpbuf" [render a] σ =
  match eval E' a σ with
  | Some (VPtr p, σ') =>
      match load σ' (LMember p "jmpbuf") with
      | Some c => Some (rvalue (LMember p "jmpbuf") c, σ')
      | None => None
      end
  | _ => None
  end.
Proof.
  intros H Hp. unfold eval_macro.
  rewrite (includes_expand_png_jmpbuf E E' H Hp).
  rewrite <- render_field_access, parse_render. reflexivity.
Qed.

Lemma eval_enumerator E x v σ :
  decls E !! x = Some (DEnumerator v) →
  vars σ !! x = None →
  eval E (EId x) σ = Some (VInt v, σ).
Proof. intros Hd Hv. simpl. by rewrite Hv, Hd. Qed.

(** C7, as the code has it.  The five macro constants evaluate, in every
    program state, to the same value and leave the state as it was, and so
    do the two enumeration constants wherever no variable of the same name
    hides them.  The fallback accessor is not a constant: a use
    png_jmpbuf(a) evaluates its argument once and then yields member jmpbuf
    of the object the argument points to, so that its result and the state
    it leaves are those of the argument and of the state it runs in; it has
    no effect beyond that of its argument. *)
Theorem exported_constants_pure E E' :
  includes E E' →
  (∀ σ, eval_macro E' "MILLISEC" [] σ = Some (VInt 1000, σ)) ∧
  (∀ σ, eval_macro E' "PATH_MAX" [] σ = Some (VInt 1024, σ)) ∧
  (∀ σ, eval_macro E' "EXIT_SUCCESS" [] σ = Some (VInt 0, σ)) ∧
  (∀ σ, eval_macro E' "EXIT_FAILURE" [] σ = Some (VInt 1, σ)) ∧
  (∀ σ, eval_macro E' "EXIT_USAGE" [] σ = Some (VInt 2, σ)) ∧
  (∀ σ, vars σ !! "B_FALSE" = None →
        eval E' (EId "B_FALSE") σ = Some (VInt 0, σ)) ∧
  (∀ σ, vars σ !! "B_TRUE" = None →
        eval E' (EId "B_TRUE") σ = Some (VInt 1, σ)) ∧
  (macros E !! "png_jmpbuf" = None →
   ∀ a σ,
     eval_macro E' "png_jmpbuf" [render a] σ =
     match eval E' a σ with
     | Some (VPtr p, σ') =>
         match load σ' (LMember p "jmpbuf") with
         | Some c => Some (rvalue (LMember p "jmpbuf") c, σ')
         | None => None
         end
     | _ => None
     end).
Proof.
  intros H. destruct (includes_boolean_t E E' H) as (_ & Hf & Ht).
  split; [|split; [|split; [|split; [|split; [|split; [|split]]]]]].
  - intros σ. apply (eval_macro_object E' "MILLISEC" 1000%N).
    by eapply includes_MILLISEC.
  - intros σ. apply (eval_macro_object E' "PATH_MAX" 1024%N).
    by eapply includes_PATH_MAX.
  - intros σ. apply (eval_macro_object E' "EXIT_SUCCESS" 0%N).
    by eapply includes_EXIT_SUCCESS.
  - intros σ. apply (eval_macro_object E' "EXIT_FAILURE" 1%N).
    by eapply includes_EXIT_FAILURE.
  - intros σ. apply (eval_macro_object E' "EXIT_USAGE" 2%N).
    by eapply includes_EXIT_USAGE.
  - intros σ Hv. by apply eval_enumerator.
  - intros σ Hv. by apply eval_enumerator.
  - intros Hp a σ. by apply (eval_macro_png_jmpbuf E E').
Qed.

Lemma exported_constants_pure_witness :
  includes empty_tu compat_tu ∧
  (∀ σ, eval_macro compat_tu "MILLISEC" [] σ = Some (VInt 1000, σ)) ∧
  (∀ σ, eval_macro compat_tu "PATH_MAX" [] σ = Some (VInt 1024, σ)) ∧
  (∀ σ, eval_macro compat_tu "EXIT_SUCCESS" [] σ = Some (VInt 0, σ)) ∧
  (∀ σ, eval_macro compat_tu "EXIT_FAILURE" [] σ = Some (VInt 1, σ)) ∧
  (∀ σ, eval_macro compat_tu "EXIT_USAGE" [] σ = Some (VInt 2, σ)) ∧
  (∀ σ, vars σ !! "B_FALSE" = None →
        eval compat_tu (EId "B_FALSE") σ = Some (VInt 0, σ)) ∧
  (∀ σ, vars σ !! "B_TRUE" = None →
        eval compat_tu (EId "B_TRUE") σ = Some (VInt 1, σ)) ∧
  (macros empty_tu !! "png_jmpbuf" = None →
   ∀ a σ,
     eval_macro compat_tu "png_jmpbuf" [render a] σ =
     match eval compat_tu a σ with
     | Some (VPtr p, σ') =>
         match load σ' (LMember p "jmpbuf") with
         | Some c => Some (rvalue (LMember p "jmpbuf") c, σ')
         | None => None
         end
     | _ => None
     end).
Proof.
  assert (includes empty_tu compat_tu) as H.
  { split; [reflexivity | vm_compute; reflexivity]. }
  split; [exact H | exact (exported_constants_pure empty_tu compat_tu H)].
Defined.

(** C7 as it is worded does not hold for the fallback accessor.  The use
    png_jmpbuf(png++) changes the program state, and evaluated a second
    time, in the state the first evaluation left, it gives another
    result. *)
Lemma png_jmpbuf_not_pure :
  includes empty_tu compat_tu ∧
  macros empty_tu !! "png_jmpbuf" = None ∧
  eval_macro compat_tu "png_jmpbuf" [render (EPostInc (EId "png"))] png_state =
    Some (VDecay (LMember 7 "jmpbuf"), png_state_next) ∧
  png_state_next ≠ png_state ∧
  (∃ σ, eval_macro compat_tu "png_jmpbuf" [render (EPostInc (EId "png"))]
          png_state_next = Some (VDecay (LMember 8 "jmpbuf"), σ)) ∧
  VDecay (LMember 8 "jmpbuf") ≠ VDecay (LMember 7 "jmpbuf").
Proof.
  split; [split; [reflexivity | vm_compute; reflexivity]|].
  split; [reflexivity|].
  split; [vm_compute; reflexivity|].
  split.
  { intros Heq. apply (f_equal (λ σ, vars σ !! "png")) in Heq.
    vm_compute in Heq. discriminate Heq. }
  split; [eexists; vm_compute; reflexivity | discriminate].
Qed.

(** * Further properties of the header *)

(** ** Directives only add *)

Lemma extends_refl E : extends E E.
Proof. by split. Qed.

Lemma extends_trans E1 E2 E3 : extends E1 E2 → extends E2 E3 → extends E1 E3.
Proof. intros [? ?] [? ?]. split; by etrans. Qed.

Lemma Ok_monotone : monotone Ok.
Proof. intros E E' [= <-]. apply extends_refl. Qed.

Lemma define_monotone name m : monotone (define name m).
Proof.
  intros E E'. unfold define.
  destruct (macros E !! name) as [m'|] eqn:Hl.
  - case_decide; [|discriminate]. intros [= <-]. apply extends_refl.
  - intros [= <-]. split; simpl; [by apply insert_subseteq | done].
Qed.

Lemma declare_monotone x d : monotone (declare x d).
Proof.
  intros E E'. unfold declare. destruct (decls E !! x) eqn:Hl; [discriminate|].
  intros [= <-]. split; simpl; [done | by apply insert_subseteq].
Qed.

Lemma seq_monotone d1 d2 : monotone d1 → monotone d2 → monotone (d1 >=> d2).
Proof.
  intros H1 H2 E E' (E1 & Ha & Hb)%seq_ok_inv.
  eapply extends_trans; [by apply H1 | by apply H2].
Qed.

Lemma ifndef_monotone name d : monotone d → monotone (ifndef name d).
Proof.
  intros Hd E E'. unfold ifndef. destruct (macros E !! name).
  - intros [= <-]. apply extends_refl.
  - apply Hd.
Qed.

Lemma declare_all_monotone l : monotone (declare_all l).
Proof.
  induction l as [|[x v] rest IH]; simpl.
  - apply Ok_monotone.
  - apply seq_monotone; [apply declare_monotone | done].
Qed.

Lemma typedef_enum_monotone members name : monotone (typedef_enum members name).
Proof.
  intros E E'. unfold typedef_enum. destruct (first_macro E _); [discriminate|].
  apply seq_monotone; [apply declare_all_monotone | apply declare_monotone].
Qed.

Lemma compat_h_monotone : monotone compat_h.
Proof.
  unfold compat_h, compat_h_group.
  repeat first
    [ apply ifndef_monotone | apply seq_monotone | apply define_monotone
    | apply typedef_enum_monotone ].
Qed.

Lemma compat_h_frame E E' :
  compat_h E = Ok E' →
  (∀ name, name ∉ header_macros → macros E' !! name = macros E !! name) ∧
  (∀ x, x ∉ header_identifiers → decls E' !! x = decls E !! x).
Proof.
  intros H. destruct (macros E !! "COMPAT_H") as [g|] eqn:Hg.
  - rewrite (compat_h_guarded E g Hg) in H. by injection H as <-.
  - apply compat_h_inv in H as [-> ->]; [|done]. split.
    + intros name Hn. unfold header_macros in Hn.
      rewrite !not_elem_of_cons in Hn.
      destruct Hn as (? & ? & ? & ? & ? & ? & ? & _).
      unfold macros_after. destruct (macros E !! "png_jmpbuf");
        by rewrite !lookup_insert_ne by done.
    + intros x Hx. unfold header_identifiers in Hx.
      rewrite !not_elem_of_cons in Hx. destruct Hx as (? & ? & ? & _).
      unfold decls_after. by rewrite !lookup_insert_ne by done.
Qed.

(** X2.  A successful inclusion leaves every macro alone that is not one
    of the seven names the header defines, and it keeps every declaration
    the translation unit had. *)
Theorem compat_h_touches_only_its_macros E E' :
  compat_h E = Ok E' →
  (∀ name, name ∉ header_macros → macros E' !! name = macros E !! name) ∧
  decls E ⊆ decls E'.
Proof.
  intros H. split.
  - by apply compat_h_frame.
  - by apply compat_h_monotone.
Qed.

Lemma compat_h_touches_only_its_macros_witness :
  compat_h libpng_tu = Ok libpng_compat_tu ∧
  (∀ name, name ∉ header_macros →
     macros libpng_compat_tu !! name = macros libpng_tu !! name) ∧
  decls libpng_tu ⊆ decls libpng_compat_tu.
Proof.
  assert (compat_h libpng_tu = Ok libpng_compat_tu) as H.
  { vm_compute. reflexivity. }
  split; [exact H|].
  exact (compat_h_touches_only_its_macros libpng_tu libpng_compat_tu H).
Defined.

(** ** When an inclusion succeeds *)

(** X1.  The header can be included into every compatible translation
    unit: one where the guard is not defined, each of MILLISEC, PATH_MAX
    and the three exit codes is undefined or defined as in the header, no
    identifier of the typedef line is an object-like macro, and B_FALSE,
    B_TRUE and boolean_t are not declared.  Whether png_jmpbuf is defined
    plays no part.  The inclusion then defines the guard. *)
Theorem compat_h_accepts_compatible E :
  compatible E →
  ∃ E', includes E E' ∧ macros E' !! "COMPAT_H" = Some COMPAT_H.
Proof.
  intros Hc. destruct (compat_h_succeeds E Hc) as [E' H].
  exists E'. split; [split; [apply Hc | done]|].
  apply compat_h_inv in H as [-> _]; [|apply Hc].
  apply macros_after_lookup; [done|]. by simplify_map_eq.
Qed.

Lemma compat_h_accepts_compatible_witness :
  compatible libpng_tu ∧
  ∃ E', includes libpng_tu E' ∧ macros E' !! "COMPAT_H" = Some COMPAT_H.
Proof.
  assert (compatible libpng_tu) as Hc.
  { split; try (left; reflexivity); reflexivity. }
  split; [exact Hc | exact (compat_h_accepts_compatible libpng_tu Hc)].
Defined.

(** ** The accessor after an inclusion *)

(** X3.  After its first inclusion of the header a translation unit always
    has a png_jmpbuf macro: the one it had before, or else the fallback. *)
Theorem png_jmpbuf_available E E' :
  includes E E' →
  is_Some (macros E' !! "png_jmpbuf") ∧
  (macros E' !! "png_jmpbuf" = macros E !! "png_jmpbuf" ∨
   macros E !! "png_jmpbuf" = None ∧
   macros E' !! "png_jmpbuf" = Some png_jmpbuf).
Proof.
  intros H. destruct (macros E !! "png_jmpbuf") as [m|] eqn:Hp.
  - assert (macros E' !! "png_jmpbuf" = Some m) as ->; [|eauto].
    destruct H as [_ H]. apply compat_h_monotone in H as [HM _].
    by eapply lookup_weaken.
  - rewrite (includes_png_jmpbuf E E' H Hp). eauto.
Qed.

Lemma png_jmpbuf_available_witness :
  includes empty_tu compat_tu ∧
  is_Some (macros compat_tu !! "png_jmpbuf") ∧
  (macros compat_tu !! "png_jmpbuf" = macros empty_tu !! "png_jmpbuf" ∨
   macros empty_tu !! "png_jmpbuf" = None ∧
   macros compat_tu !! "png_jmpbuf" = Some png_jmpbuf).
Proof.
  assert (includes empty_tu compat_tu) as H.
  { split; [reflexivity | vm_compute; reflexivity]. }
  split; [exact H | exact (png_jmpbuf_available empty_tu compat_tu H)].
Defined.

Lemma compatible_define_png_jmpbuf E m :
  compatible E →
  compatible (mkTu (<["png_jmpbuf" := m]> (macros E)) (decls E)).
Proof.
  intros [Hg H1 H2 H3 H4 H5 Hline Hbf Hbt Hb].
  unfold agrees in *.
  split; unfold agrees; cbn [macros decls]; try done;
    try (by rewrite lookup_insert_ne by done).
  rewrite <- Hline. apply first_macro_ext. intros x Hx. cbn [macros].
  set_unfold in Hx.
  destruct Hx as [->|[->|[->|[->|[->|[]]]]]];
    by rewrite lookup_insert_ne by done.
Qed.

Lemma tu_eq (E1 E2 : tu) :
  macros E1 = macros E2 → decls E1 = decls E2 → E1 = E2.
Proof. destruct E1, E2. simpl. by intros -> ->. Qed.

Lemma macros_after_png_jmpbuf M :
  M !! "png_jmpbuf" = None →
  macros_after (<["png_jmpbuf" := png_jmpbuf]> M) = macros_after M.
Proof.
  intros Hp. unfold macros_after. rewrite lookup_insert_eq, Hp.
  by repeat (rewrite (insert_insert_ne _ _ "png_jmpbuf") by done).
Qed.

(** X4.  In a compatible translation unit without png_jmpbuf, a definition
    of png_jmpbuf written before the inclusion is accepted and is the one
    in effect afterwards.  When that definition is the same as the
    fallback, as in the libpng versions that define
    [png_jmpbuf(png_ptr)] as [((png_ptr)->jmpbuf)], it can stand before or
    after the inclusion: both orders are accepted and give the translation
    unit that the inclusion alone gives. *)
Theorem png_jmpbuf_same_definition E m :
  compatible E →
  macros E !! "png_jmpbuf" = None →
  (∃ E1, (define "png_jmpbuf" m >=> compat_h) E = Ok E1 ∧
         macros E1 !! "png_jmpbuf" = Some m) ∧
  (∃ E', compat_h E = Ok E' ∧
         (define "png_jmpbuf" png_jmpbuf >=> compat_h) E = Ok E' ∧
         (compat_h >=> define "png_jmpbuf" png_jmpbuf) E = Ok E').
Proof.
  intros Hc Hp.
  assert (∀ m0, define "png_jmpbuf" m0 E =
            Ok (mkTu (<["png_jmpbuf" := m0]> (macros E)) (decls E))) as Hd.
  { intros m0. unfold define. by rewrite Hp. }
  split.
  - rewrite (seq_ok _ _ _ _ (Hd m)).
    destruct (compat_h_succeeds _ (compatible_define_png_jmpbuf E m Hc))
      as [E1 H1].
    exists E1. split; [done|].
    apply compat_h_monotone in H1 as [HM _].
    eapply lookup_weaken; [|exact HM]. simpl. apply lookup_insert_eq.
  - destruct (compat_h_succeeds E Hc) as [E' H].
    assert (includes E E') as Hinc by (split; [apply Hc | done]).
    exists E'. split; [done|]. split.
    + rewrite (seq_ok _ _ _ _ (Hd png_jmpbuf)).
      destruct (compat_h_succeeds _
                  (compatible_define_png_jmpbuf E png_jmpbuf Hc)) as [E1 H1].
      rewrite H1. f_equal.
      apply compat_h_inv in H1 as [HM1 HD1];
        [|cbn [macros]; rewrite lookup_insert_ne by done; apply Hc].
      apply compat_h_inv in H as [HM HD]; [|apply Hc].
      apply tu_eq.
      * rewrite HM1, HM. cbn [macros]. by apply macros_after_png_jmpbuf.
      * by rewrite HD1, HD.
    + rewrite (seq_ok _ _ _ _ H). unfold define.
      rewrite (includes_png_jmpbuf E E' Hinc Hp). by rewrite decide_True.
Qed.

Lemma png_jmpbuf_same_definition_witness :
  compatible empty_tu ∧
  macros empty_tu !! "png_jmpbuf" = None ∧
  (∃ E1, (define "png_jmpbuf" libpng_png_jmpbuf >=> compat_h) empty_tu = Ok E1 ∧
         macros E1 !! "png_jmpbuf" = Some libpng_png_jmpbuf) ∧
  (∃ E', compat_h empty_tu = Ok E' ∧
         (define "png_jmpbuf" png_jmpbuf >=> compat_h) empty_tu = Ok E' ∧
         (compat_h >=> define "png_jmpbuf" png_jmpbuf) empty_tu = Ok E').
Proof.
  assert (compatible empty_tu) as Hc.
  { split; try (left; reflexivity); reflexivity. }
  assert (macros empty_tu !! "png_jmpbuf" = None) as Hp by reflexivity.
  split; [exact Hc | split; [exact Hp|]].
  exact (png_jmpbuf_same_definition empty_tu libpng_png_jmpbuf Hc Hp).
Defined.

(** ** The diagnostics of a failed inclusion *)

Lemma seq_err_inv (d1 d2 : directive) E e :
  (d1 >=> d2) E = Err e →
  d1 E = Err e ∨ ∃ E1, d1 E = Ok E1 ∧ d2 E1 = Err e.
Proof.
  unfold seq, bind. destruct (d1 E) as [E1|e1]; [eauto|].
  intros [= ->]. by left.
Qed.

Lemma define_err_inv name m E e :
  define name m E = Err e →
  e = MacroRedefined name ∧ ∃ m', macros E !! name = Some m' ∧ m' ≠ m.
Proof.
  unfold define. destruct (macros E !! name) as [m'|]; [|discriminate].
  case_decide; [discriminate|]. intros [= <-]. eauto.
Qed.

Lemma declare_err_inv x d E e :
  declare x d E = Err e → e = Redeclared x ∧ is_Some (decls E !! x).
Proof.
  unfold declare. destruct (decls E !! x) eqn:Hl; [|discriminate].
  intros [= <-]. eauto.
Qed.

Lemma first_macro_Some E idents x :
  first_macro E idents = Some x →
  x ∈ idents ∧ ∃ body, macros E !! x = Some (ObjectLike body).
Proof.
  induction idents as [|y rest IH]; [discriminate|]. simpl.
  destruct (macros E !! y) as [[body|params body]|] eqn:Hy.
  - intros [= <-]. split; [apply list_elem_of_here | eauto].
  - intros [Hx ?]%IH. split; [by apply list_elem_of_further | done].
  - intros [Hx ?]%IH. split; [by apply list_elem_of_further | done].
Qed.

Lemma typedef_boolean_t_err_inv E e :
  typedef_enum ["B_FALSE"; "B_TRUE"] "boolean_t" E = Err e →
  (∃ x, x ∈ typedef_line ∧ e = MacroInDeclaration x ∧
        ∃ body, macros E !! x = Some (ObjectLike body)) ∨
  (∃ x, x ∈ header_identifiers ∧ e = Redeclared x ∧ is_Some (decls E !! x)).
Proof.
  unfold typedef_enum. simpl app.
  destruct (first_macro E _) as [x|] eqn:Hfm.
  - intros [= <-]. left. exists x.
    apply first_macro_Some in Hfm as [Hx Hb]. by repeat split.
  - change (enum_values 0 ["B_FALSE"; "B_TRUE"])
      with [("B_FALSE", 0); ("B_TRUE", 1)].
    simpl declare_all. intros H. right.
    apply seq_err_inv in H as [H|(E3 & H3 & H)].
    + apply seq_err_inv in H as [H|(E1 & H1 & H)].
      * apply declare_err_inv in H as [-> Hs].
        exists "B_FALSE". repeat split; [set_solver | done].
      * apply declare_inv in H1 as (_ & _ & D1).
        apply seq_err_inv in H as [H|(E2 & _ & H)]; [|discriminate].
        apply declare_err_inv in H as [-> Hs].
        rewrite D1, lookup_insert_ne in Hs by done.
        exists "B_TRUE". repeat split; [set_solver | done].
    + apply seq_ok_inv in H3 as (E1 & H1 & H3).
      apply seq_ok_inv in H3 as (E2 & H2 & H3). injection H3 as <-.
      apply declare_inv in H1 as (_ & _ & D1).
      apply declare_inv in H2 as (_ & _ & D2).
      apply declare_err_inv in H as [-> Hs].
      rewrite D2, D1, !lookup_insert_ne in Hs by done.
      exists "boolean_t". repeat split; [set_solver | done].
Qed.

Ltac step_define_err H E1 Hm HD :=
  let Hd := fresh "Hd" in
  apply seq_err_inv in H as [Hd|(E1 & Hd & H)];
  [ apply define_err_inv in Hd as (-> & ? & Hd & ?)
  | apply define_inv in Hd as [Hm HD] ].

(** X6.  A failed inclusion names its cause, and the cause is in the
    translation unit as it was before the inclusion: a redefinition of one
    of MILLISEC, PATH_MAX and the three exit codes that was defined
    differently, an identifier of the typedef line that is an object-like
    macro, or one of B_FALSE, B_TRUE and boolean_t that was declared
    already.  The guard and png_jmpbuf, which the header tests before it
    defines them, are never the cause. *)
Theorem compat_h_error_cause E e :
  compat_h E = Err e →
  (∃ name m m', (name, m) ∈ header_constants ∧ e = MacroRedefined name ∧
                macros E !! name = Some m' ∧ m' ≠ m) ∨
  (∃ x body, x ∈ typedef_line ∧ e = MacroInDeclaration x ∧
             macros E !! x = Some (ObjectLike body)) ∨
  (∃ x, x ∈ header_identifiers ∧ e = Redeclared x ∧ is_Some (decls E !! x)).
Proof.
  unfold compat_h, ifndef.
  destruct (macros E !! "COMPAT_H") as [g|] eqn:Hg; [discriminate|].
  unfold compat_h_group. intros H.
  step_define_err H E0 Hm0 HD0.
  { congruence. }
  step_define_err H E1 Hm1 HD1.
  { left. exists "MILLISEC", MILLISEC, x.
    rewrite Hm0, lookup_insert_ne in Hd by done.
    repeat split; [set_solver | done..]. }
  step_define_err H E2 Hm2 HD2.
  { left. exists "PATH_MAX", PATH_MAX, x.
    rewrite Hm1, Hm0, !lookup_insert_ne in Hd by done.
    repeat split; [set_solver | done..]. }
  step_define_err H E3 Hm3 HD3.
  { left. exists "EXIT_SUCCESS", EXIT_SUCCESS, x.
    rewrite Hm2, Hm1, Hm0, !lookup_insert_ne in Hd by done.
    repeat split; [set_solver | done..]. }
  step_define_err H E4 Hm4 HD4.
  { left. exists "EXIT_FAILURE", EXIT_FAILURE, x.
    rewrite Hm3, Hm2, Hm1, Hm0, !lookup_insert_ne in Hd by done.
    repeat split; [set_solver | done..]. }
  step_define_err H E5 Hm5 HD5.
  { left. exists "EXIT_USAGE", EXIT_USAGE, x.
    rewrite Hm4, Hm3, Hm2, Hm1, Hm0, !lookup_insert_ne in Hd by done.
    repeat split; [set_solver | done..]. }
  right.
  apply seq_err_inv in H as [H|(E6 & Ht & H)].
  - apply typedef_boolean_t_err_inv in H
      as [(x & Hx & -> & body & Hb)|(x & Hx & -> & Hs)].
    + left. exists x, body. repeat split; [done..|].
      rewrite Hm5, Hm4, Hm3, Hm2, Hm1, Hm0 in Hb.
      unfold typedef_line in Hx. set_unfold in Hx.
      destruct Hx as [->|[->|[->|[->|[->|[]]]]]];
        by rewrite !lookup_insert_ne in Hb by done.
    + right. exists x. repeat split; [done..|].
      by rewrite HD5, HD4, HD3, HD2, HD1, HD0 in Hs.
  - unfold ifndef, define in H.
    destruct (macros E6 !! "png_jmpbuf"); discriminate.
Qed.

Lemma compat_h_error_cause_witness :
  compat_h linux_tu = Err (MacroRedefined "PATH_MAX") ∧
  ((∃ name m m', (name, m) ∈ header_constants ∧
      MacroRedefined "PATH_MAX" = MacroRedefined name ∧
      macros linux_tu !! name = Some m' ∧ m' ≠ m) ∨
   (∃ x body, x ∈ typedef_line ∧
      MacroRedefined "PATH_MAX" = MacroInDeclaration x ∧
      macros linux_tu !! x = Some (ObjectLike body)) ∨
   (∃ x, x ∈ header_identifiers ∧ MacroRedefined "PATH_MAX" = Redeclared x ∧
      is_Some (decls linux_tu !! x))).
Proof.
  assert (compat_h linux_tu = Err (MacroRedefined "PATH_MAX")) as H.
  { vm_compute. reflexivity. }
  split; [exact H | exact (compat_h_error_cause linux_tu _ H)].
Defined.

(** ** The header and definitions of other names *)

Lemma macros_after_insert_ne M name m :
  name ∉ header_macros →
  macros_after (<[name := m]> M) = <[name := m]> (macros_after M).
Proof.
  unfold header_macros. rewrite !not_elem_of_cons.
  intros (? & ? & ? & ? & ? & ? & ? & _).
  unfold macros_after. rewrite lookup_insert_ne by done.
  destruct (M !! "png_jmpbuf");
    repeat (rewrite (insert_insert_ne _ name) by done); done.
Qed.

Lemma compatible_insert E name m :
  name ∉ header_macros → name ∉ typedef_line →
  compatible E →
  compatible (mkTu (<[name := m]> (macros E)) (decls E)).
Proof.
  unfold header_macros, typedef_line. rewrite !not_elem_of_cons.
  intros (? & ? & ? & ? & ? & ? & ? & _) (? & ? & ? & ? & ? & _).
  assert (first_macro (mkTu (<[name := m]> (macros E)) (decls E))
            ["typedef"; "enum"; "B_FALSE"; "B_TRUE"; "boolean_t"] =
          first_macro E ["typedef"; "enum"; "B_FALSE"; "B_TRUE"; "boolean_t"])
    as Hfm.
  { apply first_macro_ext. intros x Hx. cbn [macros]. set_unfold in Hx.
    destruct Hx as [->|[->|[->|[->|[->|[]]]]]];
      by rewrite lookup_insert_ne by done. }
  intros [Cg C1 C2 C3 C4 C5 Cline Cbf Cbt Cb].
  unfold agrees in *.
  split; unfold agrees; cbn [macros decls];
    rewrite ?Hfm, ?lookup_insert_ne by done; done.
Qed.

(** X7.  In a compatible translation unit, a definition of a new macro
    whose name the header does not use (none of its macro names, no
    identifier of its typedef line) can be written before or after the
    inclusion: both orders are accepted and give the same translation
    unit, in which the macro has that definition. *)
Theorem compat_h_define_fresh_commute E name m :
  compatible E →
  macros E !! name = None →
  name ∉ header_macros →
  name ∉ typedef_line →
  ∃ E1, (define name m >=> compat_h) E = Ok E1 ∧
        (compat_h >=> define name m) E = Ok E1 ∧
        macros E1 !! name = Some m.
Proof.
  intros Hc Hname Hn Hl.
  assert (name ≠ "COMPAT_H") as Hng.
  { intros ->. apply Hn. apply list_elem_of_here. }
  set (E0 := mkTu (<[name := m]> (macros E)) (decls E)).
  assert (define name m E = Ok E0) as Hd.
  { unfold define. by rewrite Hname. }
  destruct (compat_h_succeeds E0 (compatible_insert E name m Hn Hl Hc))
    as [E1 H1].
  destruct (compat_h_succeeds E Hc) as [E' H'].
  exists E1. split; [by rewrite (seq_ok _ _ _ _ Hd)|].
  pose proof (compat_h_monotone _ _ H1) as [HM1 _].
  pose proof (compat_h_frame E E' H') as [Hfr _].
  apply compat_h_inv in H1 as [HM HD];
    [|unfold E0; cbn [macros]; rewrite lookup_insert_ne by done; apply Hc].
  split.
  - rewrite (seq_ok _ _ _ _ H'). unfold define.
    rewrite (Hfr name Hn), Hname. f_equal.
    apply compat_h_inv in H' as [HM' HD']; [|apply Hc].
    apply tu_eq; cbn [macros decls].
    + rewrite HM, HM'. unfold E0. cbn [macros].
      by rewrite macros_after_insert_ne.
    + by rewrite HD, HD'.
  - eapply lookup_weaken; [|exact HM1]. cbn [macros]. apply lookup_insert_eq.
Qed.

Lemma compat_h_define_fresh_commute_witness :
  compatible empty_tu ∧
  macros empty_tu !! "NDEBUG" = None ∧
  ("NDEBUG" ∉ header_macros) ∧
  ("NDEBUG" ∉ typedef_line) ∧
  ∃ E1, (define "NDEBUG" (ObjectLike []) >=> compat_h) empty_tu = Ok E1 ∧
        (compat_h >=> define "NDEBUG" (ObjectLike [])) empty_tu = Ok E1 ∧
        macros E1 !! "NDEBUG" = Some (ObjectLike []).
Proof.
  assert (compatible empty_tu) as Hc.
  { split; try (left; reflexivity); reflexivity. }
  assert (macros empty_tu !! "NDEBUG" = None) as Hf by reflexivity.
  assert ("NDEBUG" ∉ header_macros) as Hn.
  { unfold header_macros. rewrite !not_elem_of_cons.
    repeat split; try discriminate. apply not_elem_of_nil. }
  assert ("NDEBUG" ∉ typedef_line) as Hl.
  { unfold typedef_line. rewrite !not_elem_of_cons.
    repeat split; try discriminate. apply not_elem_of_nil. }
  split; [exact Hc | split; [exact Hf | split; [exact Hn | split; [exact Hl|]]]].
  exact (compat_h_define_fresh_commute empty_tu "NDEBUG" (ObjectLike []) Hc Hf Hn Hl).
Defined.

(** ** The body of the header without its guard *)

Lemma compat_h_group_twice_witness :
  compat_h_group empty_tu = Ok compat_tu ∧
  ∃ e, compat_h_group compat_tu = Err e.
Proof.
  assert (compat_h_group empty_tu = Ok compat_tu) as H.
  { vm_compute. reflexivity. }
  split; [exact H | exact (compat_h_group_twice empty_tu compat_tu H)].
Defined.
